(** * EMLE electrostatic embedding: a shallow embedding of [emle/models.py]

    The tensors of the Python source become MathComp matrices over an
    arbitrary real field [F] (exact arithmetic stands for the floating-point
    numbers of the source).  The primitives the source takes from [torch]
    ([sqrt], [erf], [exp], the constant [pi]) are section variables.
    Calls that may raise ([tensor[index]], [torch.linalg.solve],
    [torch.linalg.inv]) return in the [result] monad. *)

From HB Require Import structures.
From mathcomp Require Import ssreflect ssrfun ssrbool eqtype ssrnat seq choice.
From mathcomp Require Import div fintype finfun bigop tuple order fingroup perm.
From mathcomp Require Import ssralg ssrnum ssrint rat matrix mxalgebra.

Set Implicit Arguments.
Unset Strict Implicit.
Unset Printing Implicit Defensive.
Set Warnings "-rewrite-rw".

Import Order.TTheory GRing.Theory Num.Theory.
Local Open Scope ring_scope.

(** ** Exceptions *)

Inductive exn : Type := IndexError | LinAlgError | TypeError.

Inductive result (T : Type) : Type :=
| Ok of T
| Raise of exn.

Arguments Ok {T} _.
Arguments Raise {T} _.

Definition bind {T U : Type} (c : result T) (k : T -> result U) : result U :=
  match c with
  | Ok x => k x
  | Raise e => Raise e
  end.

Notation "x <- c ;; k" := (bind c (fun x => k))
  (at level 100, c at next level, right associativity).

(** ** Integer indexing of a tensor

    [t[z]] for an [int64] index [z] into a dimension of size [n]: indices
    in [0, n) address directly, indices in [-n, 0) count from the end, and
    anything else raises [IndexError]. *)

Definition norm_index (n : nat) (z : int) : option nat :=
  match z with
  | Posz k => if (k < n)%N then Some k else None
  | Negz k => if (k < n)%N then Some (n - k.+1)%N else None
  end.

(** [t[zs]] with an index tensor: one out-of-range entry fails the whole
    gather. *)
Definition getitem {T : Type} (d : T) (t : seq T) (n : nat) (zs : n.-tuple int)
  : result (n.-tuple T) :=
  if all (fun z => norm_index (size t) z : bool) zs
  then Ok [tuple of [seq nth d t (odflt 0%N (norm_index (size t) z)) | z <- zs]]
  else Raise IndexError.

(** ** The species table of [EMLE.__init__] *)

Definition species : seq nat := [:: 1; 6; 7; 8; 16]%N.

(** [np.full(max(species) + 1, fill_value=-1)] followed by
    [species_map[s] = i] for [i, s] in [enumerate(species)]. *)
Definition species_map : seq int :=
  foldl (fun m (p : nat * nat) => set_nth (Negz 0) m p.2 (Posz p.1))
        (nseq (foldr maxn 0%N species).+1 (Negz 0))
        (zip (iota 0 (size species)) species).

(** A decimal literal, most significant digit first, read in a ring. *)
Definition decimal (R : pzRingType) (digits : seq nat) : R :=
  foldl (fun acc d => acc * 10%:R + d%:R) 0 digits.

(** ** Index arithmetic of the flattened [(3N) x (3N)] tensors

    Row [a] of a [(N * 3)]-dimensional tensor belongs to atom [a // 3] and
    to Cartesian axis [a % 3] (row-major [reshape], [repeat_interleave(3)]). *)

Lemma atom_of_subproof (N : nat) (a : 'I_(N * 3)) : (a %/ 3 < N)%N.
Proof. by rewrite ltn_divLR. Qed.

Lemma axis_of_subproof (N : nat) (a : 'I_(N * 3)) : (a %% 3 < 3)%N.
Proof. by rewrite ltn_mod. Qed.

Lemma flat_index_subproof (N : nat) (i : 'I_N) (k : 'I_3) : (i * 3 + k < N * 3)%N.
Proof.
apply: (@leq_trans (i.+1 * 3)%N); last by rewrite leq_mul2r /= ltn_ord.
by rewrite mulSn addnC ltn_add2r.
Qed.

Definition atom_of (N : nat) (a : 'I_(N * 3)) : 'I_N := Ordinal (atom_of_subproof a).
Definition axis_of (N : nat) (a : 'I_(N * 3)) : 'I_3 := Ordinal (axis_of_subproof a).
Definition flat_index (N : nat) (i : 'I_N) (k : 'I_3) : 'I_(N * 3) :=
  Ordinal (flat_index_subproof i k).

Section Model.

Variable F : realFieldType.

(** The [torch] primitives the source relies on. *)
Variables (sqrtF erfF expF : F -> F) (piF : F).

(** ** Dense linear algebra: [torch.linalg.solve]

    It raises on a singular matrix and returns the unique solution
    otherwise. *)

Definition linalg_solve (n : nat) (A : 'M[F]_n) (b : 'cV[F]_n) : result 'cV[F]_n :=
  if A \in unitmx then Ok (invmx A *m b) else Raise LinAlgError.

(** ** Division with the IEEE outcome made explicit

    [fdiv x y] is [None] when the quotient is not a finite number (the
    divisor is zero: the float result is [inf] or [nan]).  [where_] is
    the elementwise [torch.where]: both operands have been evaluated
    and one of them is selected. *)

Definition fdiv (x y : F) : option F :=
  if y == 0 then None else Some (x / y).

Definition where_ (T : Type) (c : bool) (a b : T) : T :=
  if c then a else b.

(** ** Geometry of the QM region: [EMLE._get_r_data] (lines 711-752) *)

Section RData.

Variable N : nat.

(** The tuple [(r_mat, t01, t21, t22)] returned by [_get_r_data];
    [r_data[0]] .. [r_data[3]] in the callers. *)
Record r_data : Type := RData {
  r_mat : 'M[F]_N;
  t01 : 'M[F]_N;
  t21 : 'M[F]_(N * 3);
  t22 : 'M[F]_(N * 3)
}.

(** [xyz[:, None, :] - xyz[None, :, :]] *)
Definition rr_mat (xyz : 'M[F]_(N, 3)) (b i : 'I_N) (k : 'I_3) : F :=
  xyz b k - xyz i k.

(** [torch.cdist(xyz, xyz)]: Euclidean distances. *)
Definition cdist (xyz : 'M[F]_(N, 3)) : 'M[F]_N :=
  \matrix_(i, j) sqrtF (\sum_k (xyz i k - xyz j k) ^+ 2).

(** [1.0 / r_mat]: the second operand of [torch.where], computed on
    every entry of the tensor before the selection; [None] is the
    quotient by zero. *)
Definition r_inv_operand (r : 'M[F]_N) (i j : 'I_N) : option F :=
  fdiv 1 (r i j).

(** [torch.where(r_mat == 0.0, 0.0, 1.0 / r_mat)], entry by entry. *)
Definition r_inv_checked (r : 'M[F]_N) (i j : 'I_N) : option F :=
  where_ (r i j == 0) (Some 0) (r_inv_operand r i j).

(** The tensor [r_inv]: the selected entries.  Each of them is defined
    ([r_inv_checkedE] below), so the fallback of [odflt] is never read. *)
Definition r_inv_of (r : 'M[F]_N) : 'M[F]_N :=
  \matrix_(i, j) odflt 0 (r_inv_checked r i j).

(** [t.repeat_interleave(3, dim=1).repeat_interleave(3, dim=0)] *)
Definition repeat_interleave3 (t : 'M[F]_N) : 'M[F]_(N * 3) :=
  \matrix_(a, b) t (atom_of a) (atom_of b).

(** [einsum("bik,bij->bjik", rr_mat, rr_mat).reshape((3N, 3N))] *)
Definition outer_of (xyz : 'M[F]_(N, 3)) : 'M[F]_(N * 3) :=
  \matrix_(a, c) (rr_mat xyz (atom_of a) (atom_of c) (axis_of c)
                  * rr_mat xyz (atom_of a) (atom_of c) (axis_of a)).

(** [tile(tile(eye(3).T, (1, N)).T, (1, N))] *)
Definition id2 : 'M[F]_(N * 3) :=
  \matrix_(a, c) (axis_of a == axis_of c)%:R.

Definition _get_r_data (xyz : 'M[F]_(N, 3)) : r_data :=
  let r_mat := cdist xyz in
  let r_inv := r_inv_of r_mat in
  let r_inv2 := repeat_interleave3 r_inv in
  let outer := outer_of xyz in
  let t01 := r_inv in
  let t21 := \matrix_(a, c) (- id2 a c * r_inv2 a c ^+ 3) in
  let t22 := \matrix_(a, c) (3%:R * outer a c * r_inv2 a c ^+ 5) in
  RData r_mat t01 t21 t22.

(** ** Damped interaction kernels *)

(** [_get_T0_gaussian(t01, r, s_mat)] (lines 821-849) *)
Definition _get_T0_gaussian (t01 r s_mat : 'M[F]_N) : 'M[F]_N :=
  \matrix_(i, j) (t01 i j * erfF (r i j / (s_mat i j * sqrtF 2%:R))).

Definition _lambda3 (au3 : 'M[F]_(N * 3)) : 'M[F]_(N * 3) :=
  \matrix_(a, c) (1 - expF (- au3 a c)).

Definition _lambda5 (au3 : 'M[F]_(N * 3)) : 'M[F]_(N * 3) :=
  \matrix_(a, c) (1 - (1 + au3 a c) * expF (- au3 a c)).

Definition _get_T2_thole (tr21 tr22 au3 : 'M[F]_(N * 3)) : 'M[F]_(N * 3) :=
  \matrix_(a, c) (_lambda3 au3 a c * tr21 a c + _lambda5 au3 a c * tr22 a c).

(** [mask * torch.diag(new_diag) + (1.0 - mask) * A] with
    [mask = torch.diag(ones_like(new_diag))], elementwise. *)
Definition overwrite_diag (n : nat) (new_diag : 'cV[F]_n) (A : 'M[F]_n) : 'M[F]_n :=
  let mask : 'M[F]_n := diag_mx (const_mx 1) in
  \matrix_(i, j) (mask i j * diag_mx new_diag^T i j + (1 - mask i j) * A i j).

(** ** Charge equilibration: [_get_A_QEq] (lines 525-574) and [_get_q]
    (lines 499-523) *)

(** The widths [sqrt(s2[:, None] + s2[None, :])] of the pair kernels. *)
Definition s_mat_of (a_QEq : F) (s : 'cV[F]_N) : 'M[F]_N :=
  let s_gauss : 'cV[F]_N := \col_i (s i 0 * a_QEq) in
  let s2 : 'cV[F]_N := \col_i (s_gauss i 0 ^+ 2) in
  \matrix_(i, j) sqrtF (s2 i 0 + s2 j 0).

Definition _get_A_QEq (a_QEq : F) (rd : r_data) (s : 'cV[F]_N) : 'M[F]_(N + 1) :=
  let s_gauss : 'cV[F]_N := \col_i (s i 0 * a_QEq) in
  let s_mat := s_mat_of a_QEq s in
  let A := _get_T0_gaussian (t01 rd) (r_mat rd) s_mat in
  let new_diag : 'cV[F]_N := \col_i (1 * (1 / (s_gauss i 0 * sqrtF piF))) in
  let A := overwrite_diag new_diag A in
  (* B = ones(x + 1, y + 1); B[:x, :y] = A; B[-1, -1] = 0.0 *)
  block_mx A (const_mx 1) (const_mx 1) 0.

(** [hstack([-chi, q_total])] *)
Definition rhs_QEq (q_total : F) (chi : 'cV[F]_N) : 'cV[F]_(N + 1) :=
  col_mx (- chi) (q_total%:M).

Definition _get_q (a_QEq q_total : F) (rd : r_data) (s chi : 'cV[F]_N)
  : result 'cV[F]_N :=
  let A := _get_A_QEq a_QEq rd s in
  let b := rhs_QEq q_total chi in
  x <- linalg_solve A b ;;
  Ok (usubmx x).

(** ** Induced dipoles: [_get_A_thole] (lines 623-664) *)

(** [alpha = (-60 * q_val * s**3) * k] *)
Definition alpha_of (s q_val k : 'cV[F]_N) : 'cV[F]_N :=
  let v : 'cV[F]_N := \col_i (- 60%:R * q_val i 0 * s i 0 ^+ 3) in
  \col_i (v i 0 * k i 0).

Definition _get_A_thole (a_Thole : F) (rd : r_data) (s q_val k : 'cV[F]_N)
  : 'M[F]_(N * 3) :=
  let alpha := alpha_of s q_val k in
  let alphap : 'cV[F]_N := \col_i (alpha i 0 * a_Thole) in
  let alphap_mat : 'M[F]_N := \matrix_(i, j) (alphap i 0 * alphap j 0) in
  let au3 : 'M[F]_N := \matrix_(i, j) (r_mat rd i j ^+ 3 / sqrtF (alphap_mat i j)) in
  let au32 := repeat_interleave3 au3 in
  let A := - _get_T2_thole (t21 rd) (t22 rd) au32 in
  (* alpha.repeat_interleave(3) *)
  let new_diag : 'cV[F]_(N * 3) := \col_a (1 / alpha (atom_of a) 0) in
  overwrite_diag new_diag A.

(** ** QM/MM mesh: [_get_mesh_data], Slater kernels, [_get_mu_ind]
    (lines 576-621, 666-819) *)

Section Mesh.

Variable M : nat.

(** The tuple returned by [_get_mesh_data]; the last component has shape
    [(N, M, 3)]. *)
Record mesh_data : Type := MeshData {
  mesh0 : 'M[F]_(N, M);
  mesh1 : 'M[F]_(N, M);
  mesh2 : 'I_N -> 'M[F]_(M, 3)
}.

(** [(1 - (1 + r / (s * 2)) * exp(-r / s)) / r], [s] broadcast along rows *)
Definition _get_T0_slater (r : 'M[F]_(N, M)) (s : 'cV[F]_N) : 'M[F]_(N, M) :=
  \matrix_(i, m)
    ((1 - (1 + r i m / (s i 0 * 2%:R)) * expF (- r i m / s i 0)) / r i m).

Definition _get_f1_slater (r : 'M[F]_(N, M)) (s : 'cV[F]_N) : 'M[F]_(N, M) :=
  \matrix_(i, m)
    (_get_T0_slater r s i m * r i m
     - expF (- r i m / s i 0) / s i 0 * (2%:R^-1 + r i m / (s i 0 * 2%:R)) * r i m).

Definition _get_mesh_data (xyz : 'M[F]_(N, 3)) (xyz_mesh : 'M[F]_(M, 3))
  (s : 'cV[F]_N) : mesh_data :=
  (* rr = xyz_mesh[None, :, :] - xyz[:, None, :] *)
  let rr (i : 'I_N) : 'M[F]_(M, 3) := \matrix_(m, k) (xyz_mesh m k - xyz i k) in
  (* r = norm(rr, ord=2, dim=2) *)
  let r : 'M[F]_(N, M) := \matrix_(i, m) sqrtF (\sum_k rr i m k ^+ 2) in
  MeshData (\matrix_(i, m) (1 / r i m))
           (_get_T0_slater r s)
           (fun i => \matrix_(m, k) (- rr i m k / r i m ^+ 3)).

Definition _get_mu_ind (a_Thole : F) (rd : r_data) (md : mesh_data)
  (q : 'cV[F]_M) (s q_val k : 'cV[F]_N) : result 'M[F]_(N, 3) :=
  let A := _get_A_thole a_Thole rd s q_val k in
  let r : 'M[F]_(N, M) := \matrix_(i, m) (1 / mesh0 md i m) in
  let f1 := _get_f1_slater r (\col_i (s i 0 * 2%:R)) in
  (* sum(mesh_data[2] * f1[:, :, None] * q[:, None], dim=1).flatten() *)
  let fields : 'cV[F]_(N * 3) :=
    \col_a \sum_m (mesh2 md (atom_of a) m (axis_of a) * f1 (atom_of a) m * q m 0) in
  mu_ind <- linalg_solve A fields ;;
  (* reshape((-1, 3)) *)
  Ok (\matrix_(i, k) mu_ind (flat_index i k) 0).

(** [sum(T0 * q[:, None], dim=0)] *)
Definition _get_vpot_q (q : 'cV[F]_N) (T0 : 'M[F]_(N, M)) : 'cV[F]_M :=
  \col_m \sum_i (T0 i m * q i 0).

(** [-tensordot(T1, mu, ((0, 2), (0, 1)))] *)
Definition _get_vpot_mu (mu : 'M[F]_(N, 3)) (T1 : 'I_N -> 'M[F]_(M, 3)) : 'cV[F]_M :=
  \col_m (- \sum_i \sum_k (T1 i m k * mu i k)).

End Mesh.

End RData.

(** ** Sparse Gaussian-process regression: [EMLE._gpr] (lines 459-497) *)

Section GPR.

Variables (NZ MAXREF D : nat).

(** Boolean-mask indexing [t[mask]]: the selected positions, in order. *)
Definition masked_select (N : nat) (mask : pred 'I_N) : seq 'I_N :=
  [seq a <- enum 'I_N | mask a].

(** Boolean-mask assignment [result[mask] = vals]: the k-th selected
    position receives the k-th value. *)
Definition masked_assign (N : nat) (result : 'cV[F]_N) (mask : pred 'I_N)
  (vals : seq F) : 'cV[F]_N :=
  \col_a (if mask a then nth 0 vals (index a (masked_select mask)) else result a 0).

(** One entry of [(ref_features_z @ mol_features_z) ** 2]: the kernel
    between reference [j] and the feature vector [x]. *)
Definition K_mol_ref2 (ref_features_z : 'M[F]_(MAXREF, D)) (x : 'rV[F]_D)
  (j : 'I_MAXREF) : F :=
  (\sum_d ref_features_z j d * x 0 d) ^+ 2.

(** [K_mol_ref2 @ c[i, :n_ref] + ref_mean[i]] for one selected atom; the
    slices [[:n_ref]] keep the references of index below [n_ref]. *)
Definition gpr_value (n_ref : nat) (ref_features_z : 'M[F]_(MAXREF, D))
  (c_z : 'rV[F]_MAXREF) (mean_z : F) (x : 'rV[F]_D) : F :=
  \sum_(j < MAXREF | (j < n_ref)%N) K_mol_ref2 ref_features_z x j * c_z 0 j + mean_z.

(** The body of the loop [for i in range(len(self._n_ref))]. *)
Definition gpr_step (N : nat) (n_ref : 'I_NZ -> nat)
  (ref_features : 'I_NZ -> 'M[F]_(MAXREF, D)) (mol_features : 'M[F]_(N, D))
  (ref_mean : 'cV[F]_NZ) (c : 'M[F]_(NZ, MAXREF)) (zid : N.-tuple int)
  (result : 'cV[F]_N) (i : 'I_NZ) : 'cV[F]_N :=
  let mask : pred 'I_N := fun a => tnth zid a == Posz i in
  let mol_features_z := [seq row a mol_features | a <- masked_select mask] in
  let vals :=
    [seq gpr_value (n_ref i) (ref_features i) (row i c) (ref_mean i 0) x
    | x <- mol_features_z] in
  masked_assign result mask vals.

Definition _gpr (N : nat) (n_ref : 'I_NZ -> nat)
  (ref_features : 'I_NZ -> 'M[F]_(MAXREF, D)) (mol_features : 'M[F]_(N, D))
  (ref_mean : 'cV[F]_NZ) (c : 'M[F]_(NZ, MAXREF)) (zid : N.-tuple int)
  : 'cV[F]_N :=
  foldl (gpr_step n_ref ref_features mol_features ref_mean c zid) 0 (enum 'I_NZ).

(** What [_gpr] leaves at one atom, as a function of that atom's species
    id [z] and feature vector [x] alone (used to state its properties):
    the regression value when [z] is one of the loop indices, and the
    initial zero otherwise. *)
Definition gpr_pointwise (n_ref : 'I_NZ -> nat)
  (ref_features : 'I_NZ -> 'M[F]_(MAXREF, D)) (ref_mean : 'cV[F]_NZ)
  (c : 'M[F]_(NZ, MAXREF)) (z : int) (x : 'rV[F]_D) : F :=
  if z is Posz n then
    if insub n is Some i
    then gpr_value (n_ref i) (ref_features i) (row i c) (ref_mean i 0) x
    else 0
  else 0.

(** ** Model construction: [EMLE.__init__] (lines 139-221) and
    [_get_Kinv] (lines 433-457) *)

(** ["species"] or ["reference"]. *)
Inductive alpha_mode : Type := species_mode | reference_mode.

(** The arrays read from the parameter file. *)
Record params : Type := Params {
  p_q_core : seq F;
  p_a_QEq : F;
  p_a_Thole : F;
  p_k_Z : seq F;
  p_sqrtk_ref : 'M[F]_(NZ, MAXREF);
  p_total_charge : option F;
  p_ref_aev : 'I_NZ -> 'M[F]_(MAXREF, D);
  p_s_ref : 'M[F]_(NZ, MAXREF);
  p_chi_ref : 'M[F]_(NZ, MAXREF);
  p_n_ref : 'I_NZ -> nat
}.

(** [self._k]: per species ([k_Z]) or per reference ([sqrtk_ref]). *)
Inductive k_tensor : Type :=
| K_species of seq F
| K_reference of 'M[F]_(NZ, MAXREF).

(** The feature model: species ids and positions to per-atom features
    (the columns selected by [_aev_mask]). *)
Definition aev_computer : Type :=
  forall N : nat, N.-tuple int -> 'M[F]_(N, 3) -> 'M[F]_(N, D).

(** The registered buffers of an [EMLE] module. *)
Record EMLE : Type := MkEMLE {
  _alpha_mode : alpha_mode;
  _aev_computer : option aev_computer;
  _species_map : seq int;
  _q_core : seq F;
  _a_QEq : F;
  _a_Thole : F;
  _k : k_tensor;
  _q_total : F;
  _ref_features : 'I_NZ -> 'M[F]_(MAXREF, D);
  _n_ref : 'I_NZ -> nat;
  _ref_values_s : 'M[F]_(NZ, MAXREF);
  _ref_values_chi : 'M[F]_(NZ, MAXREF);
  _ref_mean_s : 'cV[F]_NZ;
  _ref_mean_chi : 'cV[F]_NZ;
  _c_s : 'M[F]_(NZ, MAXREF);
  _c_chi : 'M[F]_(NZ, MAXREF);
  _ref_mean_k : 'cV[F]_NZ;
  _c_k : 'M[F]_(NZ, MAXREF)
}.

(** [K = (ref_features @ ref_features.swapaxes(1, 2)) ** 2] for species [i] *)
Definition K_ref_ref (ref_features_z : 'M[F]_(MAXREF, D)) : 'M[F]_MAXREF :=
  \matrix_(j, k) ((ref_features_z *m ref_features_z^T) j k ^+ 2).

(** [torch.linalg.inv(K + sigma**2 * torch.eye(n))], batched over the
    species: one singular matrix fails the call. *)
Definition _get_Kinv (ref_features : 'I_NZ -> 'M[F]_(MAXREF, D)) (sigma : F)
  : result ('I_NZ -> 'M[F]_MAXREF) :=
  let Ks (i : 'I_NZ) : 'M[F]_MAXREF := K_ref_ref (ref_features i) + (sigma ^+ 2) *: 1%:M in
  if [forall i, Ks i \in unitmx]
  then Ok (fun i => invmx (Ks i))
  else Raise LinAlgError.

(** [sum(ref_values, dim=1) / n_ref] *)
Definition ref_mean_of (n_ref : 'I_NZ -> nat) (ref_values : 'M[F]_(NZ, MAXREF))
  : 'cV[F]_NZ :=
  \col_i ((\sum_j ref_values i j) / (n_ref i)%:R).

(** [(Kinv @ (ref_values - ref_mean[:, None])[:, :, None]).squeeze()] *)
Definition gpr_coefficients (Kinv : 'I_NZ -> 'M[F]_MAXREF)
  (ref_values : 'M[F]_(NZ, MAXREF)) (ref_mean : 'cV[F]_NZ) : 'M[F]_(NZ, MAXREF) :=
  let ref_shifted : 'M[F]_(NZ, MAXREF) := \matrix_(i, j) (ref_values i j - ref_mean i 0) in
  \matrix_(i, j) (Kinv i *m (row i ref_shifted)^T) j 0.

Definition EMLE_init (mode : alpha_mode) (aev : option aev_computer) (p : params)
  : result EMLE :=
  let k := if mode is species_mode then K_species (p_k_Z p)
           else K_reference (p_sqrtk_ref p) in
  (* params.get("total_charge", 0) *)
  let q_total := odflt 0 (p_total_charge p) in
  let ref_features := p_ref_aev p in
  let ref_values_s := p_s_ref p in
  (* loadmat(model, squeeze_me=True) drops the axes of length one: an
     array ref_aev with such an axis is not three-dimensional, and
     swapaxes(1, 2) in _get_Kinv raises. *)
  if [|| NZ == 1, MAXREF == 1 | D == 1]%N then Raise IndexError else
  Kinv <- _get_Kinv ref_features (1000%:R^-1) ;;
  let n_ref := p_n_ref p in
  let ref_mean_s := ref_mean_of n_ref ref_values_s in
  let c_s := gpr_coefficients Kinv ref_values_s ref_mean_s in
  let ref_values_chi := p_chi_ref p in
  let ref_mean_chi := ref_mean_of n_ref ref_values_chi in
  let c_chi := gpr_coefficients Kinv ref_values_chi ref_mean_chi in
  let: (ref_mean_k, c_k) :=
    if k is K_reference kref
    then (ref_mean_of n_ref kref, gpr_coefficients Kinv kref (ref_mean_of n_ref kref))
    else (0, 0) (* torch.empty(0): never read in "species" mode *) in
  Ok (MkEMLE mode aev species_map (p_q_core p) (p_a_QEq p) (p_a_Thole p) k q_total
             ref_features n_ref ref_values_s ref_values_chi
             ref_mean_s ref_mean_chi c_s c_chi ref_mean_k c_k).

(** ** The forward pass: [EMLE.forward] (lines 357-431) and
    [ANI2xEMLE.forward] (lines 1127-1209) *)

(** [ANGSTROM_TO_BOHR = 1.8897261258369282] *)
Definition ANGSTROM_TO_BOHR : F :=
  decimal F [:: 1; 8; 8; 9; 7; 2; 6; 1; 2; 5; 8; 3; 6; 9; 2; 8; 2]%N / 10%:R ^+ 16.

(** [xyz * ANGSTROM_TO_BOHR] *)
Definition to_bohr (n : nat) (xyz : 'M[F]_(n, 3)) : 'M[F]_(n, 3) :=
  map_mx (fun x => x * ANGSTROM_TO_BOHR) xyz.

(** [torch.stack] of two or three scalars, and [torch.zeros(n)]. *)
Definition stack2 (a b : F) : 'rV[F]_2 := \row_i nth 0 [:: a; b] i.
Definition stack3 (a b c : F) : 'rV[F]_3 := \row_i nth 0 [:: a; b; c] i.
Definition zeros (n : nat) : 'rV[F]_n := const_mx 0.

(** [aev / torch.linalg.norm(aev, ord=2, dim=1, keepdim=True)] *)
Definition normalise (N : nat) (aev : 'M[F]_(N, D)) : 'M[F]_(N, D) :=
  \matrix_(a, d) (aev a d / sqrtF (\sum_e aev a e ^+ 2)).

Definition col_of_tuple (N : nat) (t : N.-tuple F) : 'cV[F]_N := \col_a tnth t a.

(** The statements both [forward] methods share, from the GPR
    predictions to the two energies. *)
Definition emle_energies (self : EMLE) (N M : nat) (species_id : N.-tuple int)
  (aev : 'M[F]_(N, D)) (charges_mm : 'cV[F]_M) (xyz_qm : 'M[F]_(N, 3))
  (xyz_mm : 'M[F]_(M, 3)) : result (F * F) :=
  let gpr := _gpr (_n_ref self) (_ref_features self) aev in
  let s := gpr (_ref_mean_s self) (_c_s self) species_id in
  let chi := gpr (_ref_mean_chi self) (_c_chi self) species_id in
  let xyz_qm_bohr := to_bohr xyz_qm in
  let xyz_mm_bohr := to_bohr xyz_mm in
  q_core <- getitem 0 (_q_core self) species_id ;;
  let q_core := col_of_tuple q_core in
  k <- match _k self with
       | K_species k_Z => (k <- getitem 0 k_Z species_id ;; Ok (col_of_tuple k))
       | K_reference _ => Ok (gpr (_ref_mean_k self) (_c_k self) species_id)
       end ;;
  let rd := _get_r_data xyz_qm_bohr in
  let md := _get_mesh_data xyz_qm_bohr xyz_mm_bohr s in
  q <- _get_q (_a_QEq self) (_q_total self) rd s chi ;;
  let q_val := q - q_core in
  mu_ind <- _get_mu_ind (_a_Thole self) rd md charges_mm s q_val k ;;
  let vpot_q_core := _get_vpot_q q_core (mesh0 md) in
  let vpot_q_val := _get_vpot_q q_val (mesh1 md) in
  let vpot_static := vpot_q_core + vpot_q_val in
  let E_static := \sum_m vpot_static m 0 * charges_mm m 0 in
  let vpot_ind := _get_vpot_mu mu_ind (mesh2 md) in
  let E_ind := (\sum_m vpot_ind m 0 * charges_mm m 0) * 2%:R^-1 in
  Ok (E_static, E_ind).

Definition EMLE_forward (self : EMLE) (N M : nat) (atomic_numbers : N.-tuple int)
  (charges_mm : 'cV[F]_M) (xyz_qm : 'M[F]_(N, 3)) (xyz_mm : 'M[F]_(M, 3))
  : result 'rV[F]_2 :=
  (* If there are no point charges, return zeros. *)
  if M == 0%N then Ok (zeros 2) else
  species_id <- getitem 0 (_species_map self) atomic_numbers ;;
  aev_computer <- (if _aev_computer self is Some f then Ok f else Raise TypeError) ;;
  let aev := normalise (aev_computer N species_id xyz_qm) in
  E <- emle_energies self species_id aev charges_mm xyz_qm xyz_mm ;;
  Ok (stack2 E.1 E.2).

(** [ANI2xEMLE]: an [EMLE] module together with the in-vacuo model.  A
    call of the in-vacuo model either raises or returns its energy, the
    features being captured by the forward hook on the way. *)
Record ANI2xEMLE : Type := MkANI2xEMLE {
  emle_base : EMLE;
  _ani2x : forall N : nat, N.-tuple int -> 'M[F]_(N, 3)
           -> result (F * 'M[F]_(N, D))
}.

Definition ANI2xEMLE_forward (self : ANI2xEMLE) (N M : nat)
  (atomic_numbers : N.-tuple int) (charges_mm : 'cV[F]_M)
  (xyz_qm : 'M[F]_(N, 3)) (xyz_mm : 'M[F]_(M, 3)) : result 'rV[F]_3 :=
  species_id <- getitem 0 (_species_map (emle_base self)) atomic_numbers ;;
  (* Get the in vacuo energy. *)
  vac <- _ani2x self atomic_numbers xyz_qm ;;
  let: (E_vac, hooked_aev) := vac in
  if M == 0%N then Ok (stack3 E_vac 0 0) else
  let aev := normalise hooked_aev in
  E <- emle_energies (emle_base self) species_id aev charges_mm xyz_qm xyz_mm ;;
  Ok (stack3 E_vac E.1 E.2).

End GPR.

(** ** Concrete inputs

    Inputs at which the statements below are instantiated. *)

(** Stand-ins for the [torch] primitives. *)
Definition sqrt_r (x : F) : F := x.
Definition erf_r (x : F) : F := x / (1 + `|x|).
Definition exp_r (x : F) : F := 1 + x.
Definition pi_r : F := 22%:R / 7%:R.

(** Two atoms, at the origin and at (1, 1, 1). *)
Definition xyz_two_atoms : 'M[F]_(2, 3) := \matrix_(i, k) (i : nat)%:R.

(** A parameter file with two species, two reference slots and two
    features; each species has a single reference (value 1) and zero
    padding. *)
Definition params_single_ref : params 2 2 2 :=
  Params [:: 1; 6%:R] 1 1 [:: 1; 1] 0 None (fun _ => 0)
         (\matrix_(i, j) (j == 0)%:R) (\matrix_(i, j) (j == 0)%:R) (fun _ => 1%N).

(** The same file with the second slot of [s_ref] and [chi_ref] holding 1
    instead of the zero padding. *)
Definition params_unpadded : params 2 2 2 :=
  Params [:: 1; 6%:R] 1 1 [:: 1; 1] 0 None (fun _ => 0)
         (const_mx 1) (const_mx 1) (fun _ => 1%N).

Definition features_zero : aev_computer 2 := fun N _ _ => 0.

(** The model [EMLE_init] builds from [params_single_ref]. *)
Definition model_single_ref : EMLE 2 2 2 :=
  let p := params_single_ref in
  let Kinv (i : 'I_2) :=
    invmx (K_ref_ref (p_ref_aev p i) + (1000%:R^-1) ^+ 2 *: 1%:M) in
  MkEMLE species_mode (Some features_zero) species_map (p_q_core p) (p_a_QEq p)
         (p_a_Thole p) (K_species _ _ (p_k_Z p)) 0 (p_ref_aev p) (p_n_ref p)
         (p_s_ref p) (p_chi_ref p)
         (ref_mean_of (p_n_ref p) (p_s_ref p))
         (ref_mean_of (p_n_ref p) (p_chi_ref p))
         (gpr_coefficients Kinv (p_s_ref p) (ref_mean_of (p_n_ref p) (p_s_ref p)))
         (gpr_coefficients Kinv (p_chi_ref p) (ref_mean_of (p_n_ref p) (p_chi_ref p)))
         0 0.

Definition model_ani2x : ANI2xEMLE 2 2 2 :=
  MkANI2xEMLE model_single_ref (fun N _ _ => Ok (1, 0)).

(** Molecules: water, a fluorine atom, a chlorine atom. *)
Definition water : 3.-tuple int := [tuple 8%:Z; 1%:Z; 1%:Z].
Definition fluorine : 1.-tuple int := [tuple 9%:Z].
Definition chlorine : 1.-tuple int := [tuple 17%:Z].

(** * Properties *)

(** ** Exceptions and solves *)

Lemma linalg_solveP (n : nat) (A : 'M[F]_n) (b x : 'cV[F]_n) :
  linalg_solve A b = Ok x -> A *m x = b.
Proof.
rewrite /linalg_solve; case: ifP => // Aunit [<-].
by rewrite mulmxA mulmxV // mul1mx.
Qed.

Lemma linalg_solve_unit (n : nat) (A : 'M[F]_n) (b : 'cV[F]_n) :
  A \in unitmx -> linalg_solve A b = Ok (invmx A *m b).
Proof. by rewrite /linalg_solve => ->. Qed.

(** ** The diagonal overwrite *)

Lemma overwrite_diagE (n : nat) (d : 'cV[F]_n) (A : 'M[F]_n) (i j : 'I_n) :
  overwrite_diag d A i j = if i == j then d i 0 else A i j.
Proof.
rewrite /overwrite_diag !mxE; case: (i == j).
  by rewrite !mulr1n mul1r subrr mul0r addr0.
by rewrite !mulr0n mul0r subr0 mul1r add0r.
Qed.

(** ** The guarded inverse distance *)

Lemma r_inv_ofE (N : nat) (r : 'M[F]_N) i j :
  r_inv_of r i j = where_ (r i j == 0) 0 (1 / r i j).
Proof.
by rewrite mxE /r_inv_checked /r_inv_operand /fdiv /where_; case: (r i j == 0).
Qed.

Section QEqTheory.

Variable N : nat.
Implicit Types (rd : r_data N) (s chi : 'cV[F]_N) (xyz : 'M[F]_(N, 3)).

Lemma A_QEq_ul a_QEq rd s (i j : 'I_N) :
  _get_A_QEq a_QEq rd s (lshift 1 i) (lshift 1 j) =
  if i == j then 1 / (s i 0 * a_QEq * sqrtF piF)
  else t01 rd i j * erfF (r_mat rd i j / (s_mat_of a_QEq s i j * sqrtF 2%:R)).
Proof.
by rewrite /_get_A_QEq block_mxEul overwrite_diagE !mxE mul1r.
Qed.

(** The solution of the constrained system: its last row reads
    [sum q = q_total]. *)
Lemma QEq_constraint a_QEq q_total rd s chi (x : 'cV[F]_(N + 1)) :
  _get_A_QEq a_QEq rd s *m x = rhs_QEq q_total chi ->
  \sum_i usubmx x i 0 = q_total.
Proof.
rewrite /_get_A_QEq /rhs_QEq -{1}[x]vsubmxK mul_block_col.
move=> /eq_col_mx [_ /matrixP /(_ 0 0)].
rewrite !mxE eqxx mulr1n.
rewrite [X in _ + X]big1; first by move=> j _; rewrite mxE mul0r.
by rewrite addr0 => <-; apply: eq_bigr => i _; rewrite [const_mx _ _ _]mxE mul1r.
Qed.

(** C2. For every geometry, widths, electronegativities and total charge:
    when the [(N+1) x (N+1)] QEq matrix is nonsingular, [_get_q] returns
    charges, and they sum exactly to [q_total]. *)
Theorem QEq_charges_sum_to_total a_QEq q_total xyz s chi :
  _get_A_QEq a_QEq (_get_r_data xyz) s \in unitmx ->
  exists2 q, _get_q a_QEq q_total (_get_r_data xyz) s chi = Ok q
           & \sum_i q i 0 = q_total.
Proof.
move=> Aunit; rewrite /_get_q linalg_solve_unit //=.
eexists; first by [].
apply: (@QEq_constraint a_QEq q_total (_get_r_data xyz) s chi).
by apply: linalg_solveP; apply: linalg_solve_unit.
Qed.

(** C3. The QEq matrix: for distinct atoms the entry is the
    Gaussian-damped Coulomb kernel, the guarded inverse distance times
    [erf (r_ij / (s_ij * sqrt 2))] with [s_ij = sqrt (s_i^2 + s_j^2)] of
    the widths broadened by [a_QEq]; every diagonal entry is
    [1 / (s_i * sqrt pi)] whatever the distance data; the last row and
    column are ones with a zero corner; the right-hand side is
    [[-chi, q_total]]; and [_get_q] returns the first [N] entries of the
    solution. *)
Theorem A_QEq_structure a_QEq q_total xyz rd s chi :
  [/\ forall i j : 'I_N, i != j ->
        _get_A_QEq a_QEq (_get_r_data xyz) s (lshift 1 i) (lshift 1 j) =
        where_ (cdist xyz i j == 0) 0 (1 / cdist xyz i j)
        * erfF (cdist xyz i j
                / (sqrtF ((s i 0 * a_QEq) ^+ 2 + (s j 0 * a_QEq) ^+ 2) * sqrtF 2%:R)),
      forall i : 'I_N,
        _get_A_QEq a_QEq rd s (lshift 1 i) (lshift 1 i) =
        1 / (s i 0 * a_QEq * sqrtF piF),
      (forall i : 'I_N,
         _get_A_QEq a_QEq rd s (lshift 1 i) (rshift N 0) = 1
         /\ _get_A_QEq a_QEq rd s (rshift N 0) (lshift 1 i) = 1)
      /\ _get_A_QEq a_QEq rd s (rshift N 0) (rshift N 0) = 0,
      (forall i : 'I_N, rhs_QEq q_total chi (lshift 1 i) 0 = - chi i 0)
      /\ rhs_QEq q_total chi (rshift N 0) 0 = q_total
    & forall x, linalg_solve (_get_A_QEq a_QEq rd s) (rhs_QEq q_total chi) = Ok x ->
      exists2 q, _get_q a_QEq q_total rd s chi = Ok q
               & forall i : 'I_N, q i 0 = x (lshift 1 i) 0].
Proof.
split.
- move=> i j /negPf ij; rewrite A_QEq_ul ij /= r_inv_ofE.
  by congr (_ * erfF (_ / (_ * _))); rewrite !mxE.
- by move=> i; rewrite A_QEq_ul eqxx.
- split=> [i|]; first by rewrite /_get_A_QEq block_mxEur block_mxEdl !mxE.
  by rewrite /_get_A_QEq block_mxEdr mxE.
- split=> [i|]; first by rewrite /rhs_QEq col_mxEu mxE.
  by rewrite /rhs_QEq col_mxEd mxE eqxx mulr1n.
- move=> x; rewrite /_get_q => -> /=.
  by eexists; first by []; move=> i; rewrite mxE.
Qed.

End QEqTheory.

(** ** Geometry data *)

Section RDataTheory.

Variable N : nat.
Implicit Types (xyz : 'M[F]_(N, 3)) (r : 'M[F]_N).

Lemma rr_mat_anti xyz b i k : rr_mat xyz b i k = - rr_mat xyz i b k.
Proof. by rewrite /rr_mat opprB. Qed.

Lemma cdist_sym xyz i j : cdist xyz i j = cdist xyz j i.
Proof.
rewrite !mxE; congr sqrtF; apply: eq_bigr => k _.
by rewrite -sqrrN opprB.
Qed.

(** The quotient [1.0 / r_mat] is a quotient by zero exactly on the
    entries of zero distance. *)
Lemma r_inv_operandE r i j : (r_inv_operand r i j == None) = (r i j == 0).
Proof. by rewrite /r_inv_operand /fdiv; case: (r i j == 0). Qed.

(** Every entry [torch.where] selects is defined. *)
Lemma r_inv_checkedE r i j : r_inv_checked r i j = Some (r_inv_of r i j).
Proof.
by rewrite mxE /r_inv_checked /r_inv_operand /fdiv /where_; case: (r i j == 0).
Qed.

Lemma r_inv_of_zero r i j : r i j = 0 -> r_inv_of r i j = 0.
Proof. by move=> r0; rewrite r_inv_ofE r0 eqxx. Qed.

Lemma r_inv_of_nonzero r i j : r i j != 0 -> r_inv_of r i j = 1 / r i j.
Proof. by move=> /negPf r0; rewrite r_inv_ofE r0. Qed.

Lemma r_inv_cdist_sym xyz i j :
  r_inv_of (cdist xyz) i j = r_inv_of (cdist xyz) j i.
Proof. by rewrite !r_inv_ofE cdist_sym. Qed.

Lemma repeat_interleave3E r (a c : 'I_(N * 3)) :
  repeat_interleave3 r a c = r (atom_of a) (atom_of c).
Proof. by rewrite mxE. Qed.

Lemma id2_sym (a c : 'I_(N * 3)) : id2 N a c = id2 N c a.
Proof. by rewrite !mxE eq_sym. Qed.

Lemma outer_of_sym xyz a c : outer_of xyz a c = outer_of xyz c a.
Proof.
rewrite !mxE [rr_mat xyz (atom_of a) _ _]rr_mat_anti.
by rewrite [rr_mat xyz (atom_of a) _ (axis_of a)]rr_mat_anti mulrNN mulrC.
Qed.

Lemma t21_sym xyz a c : t21 (_get_r_data xyz) a c = t21 (_get_r_data xyz) c a.
Proof.
by rewrite /= mxE [in RHS]mxE id2_sym !repeat_interleave3E r_inv_cdist_sym.
Qed.

Lemma t22_sym xyz a c : t22 (_get_r_data xyz) a c = t22 (_get_r_data xyz) c a.
Proof.
by rewrite /= mxE [in RHS]mxE outer_of_sym !repeat_interleave3E r_inv_cdist_sym.
Qed.

Lemma T0_gaussianE (t r sm : 'M[F]_N) i j :
  _get_T0_gaussian t r sm i j = t i j * erfF (r i j / (sm i j * sqrtF 2%:R)).
Proof. by rewrite mxE. Qed.

Lemma cdist_coincident xyz i j : row i xyz = row j xyz -> cdist xyz i j = sqrtF 0.
Proof.
move=> /rowP same; rewrite mxE; congr sqrtF; apply: big1 => k _.
by have := same k; rewrite !mxE => ->; rewrite subrr expr0n.
Qed.

(** The two undamped tensors vanish wherever the distance does. *)
Lemma t2_zero_distance xyz (a c : 'I_(N * 3)) :
  r_mat (_get_r_data xyz) (atom_of a) (atom_of c) = 0 ->
  t21 (_get_r_data xyz) a c = 0 /\ t22 (_get_r_data xyz) a c = 0.
Proof.
move=> /r_inv_of_zero r0.
by split; rewrite /= mxE repeat_interleave3E r0 expr0n /= mulr0.
Qed.


End RDataTheory.

(** ** The Thole matrix *)

Section TholeTheory.

Variable N : nat.
Implicit Types (xyz : 'M[F]_(N, 3)) (rd : r_data N) (s q_val k : 'cV[F]_N).

Lemma alpha_ofE s q_val k i :
  alpha_of s q_val k i 0 = - 60%:R * q_val i 0 * s i 0 ^+ 3 * k i 0.
Proof. by rewrite !mxE. Qed.

Lemma T2_thole_sym (tr21 tr22 au3 : 'M[F]_(N * 3)) a c :
  tr21 a c = tr21 c a -> tr22 a c = tr22 c a -> au3 a c = au3 c a ->
  _get_T2_thole tr21 tr22 au3 a c = _get_T2_thole tr21 tr22 au3 c a.
Proof. by move=> e1 e2 e3; rewrite !mxE e1 e2 e3. Qed.

Lemma A_thole_diag a_Thole rd s q_val k a :
  _get_A_thole a_Thole rd s q_val k a a = 1 / alpha_of s q_val k (atom_of a) 0.
Proof. by rewrite /_get_A_thole overwrite_diagE eqxx mxE. Qed.

Lemma A_thole_sym a_Thole xyz s q_val k a c :
  _get_A_thole a_Thole (_get_r_data xyz) s q_val k a c
  = _get_A_thole a_Thole (_get_r_data xyz) s q_val k c a.
Proof.
rewrite /_get_A_thole !overwrite_diagE eq_sym; case: eqP => [->//|_].
rewrite mxE [in RHS]mxE; congr (- _); apply: T2_thole_sym.
- exact: t21_sym.
- exact: t22_sym.
- rewrite !repeat_interleave3E mxE [in RHS]mxE.
  rewrite [r_mat _ _ _]cdist_sym; congr (_ / sqrtF _).
  by rewrite mxE [in RHS]mxE mulrC.
Qed.

(** C5. For every geometry with pairwise distinct positions and strictly
    positive effective polarizabilities [alpha_i = -60 q_val_i s_i^3 k_i],
    the Thole matrix is symmetric and the three diagonal entries of atom
    [i] are [1 / alpha_i] (a positive number), whatever the distance data
    supplies there. *)
Theorem A_thole_symmetric_diag a_Thole xyz s q_val k :
  (forall i j : 'I_N, i != j -> row i xyz != row j xyz) ->
  (forall i : 'I_N, 0 < - 60%:R * q_val i 0 * s i 0 ^+ 3 * k i 0) ->
  [/\ (_get_A_thole a_Thole (_get_r_data xyz) s q_val k)^T
      = _get_A_thole a_Thole (_get_r_data xyz) s q_val k,
      forall rd a,
        _get_A_thole a_Thole rd s q_val k a a
        = 1 / (- 60%:R * q_val (atom_of a) 0 * s (atom_of a) 0 ^+ 3
               * k (atom_of a) 0)
    & forall rd a, 0 < _get_A_thole a_Thole rd s q_val k a a].
Proof.
move=> _ alpha_gt0; split.
- by apply/matrixP => a c; rewrite mxE A_thole_sym.
- by move=> rd a; rewrite A_thole_diag alpha_ofE.
- by move=> rd a; rewrite A_thole_diag alpha_ofE divr_gt0 ?ltr01.
Qed.

End TholeTheory.

(** ** Gaussian-process regression *)

Section GPRTheory.

Variables (NZ MAXREF D N : nat).
Variable n_ref : 'I_NZ -> nat.
Implicit Types (ref_features : 'I_NZ -> 'M[F]_(MAXREF, D)).
Implicit Types (mol_features : 'M[F]_(N, D)) (ref_mean : 'cV[F]_NZ).
Implicit Types (c : 'M[F]_(NZ, MAXREF)) (zid : N.-tuple int).

(** Scattering the values computed from the gathered positions puts each
    value back at the position it was computed from. *)
Lemma masked_assign_map (result : 'cV[F]_N) (mask : pred 'I_N) (f : 'I_N -> F) a :
  masked_assign result mask [seq f b | b <- masked_select mask] a 0
  = if mask a then f a else result a 0.
Proof.
rewrite /masked_assign mxE; case: ifP => // ma.
have a_sel : a \in masked_select mask by rewrite mem_filter ma mem_enum.
by rewrite (nth_map a) ?index_mem // nth_index.
Qed.

Lemma gpr_stepE ref_features mol_features ref_mean c zid result i a :
  gpr_step n_ref ref_features mol_features ref_mean c zid result i a 0
  = if tnth zid a == Posz i
    then gpr_value (n_ref i) (ref_features i) (row i c) (ref_mean i 0)
           (row a mol_features)
    else result a 0.
Proof.
rewrite /gpr_step -map_comp.
exact: (masked_assign_map result (fun b => tnth zid b == Posz i)
          (fun b => gpr_value (n_ref i) (ref_features i) (row i c) (ref_mean i 0)
                      (row b mol_features)) a).
Qed.

(** The loop over the species, read at one atom. *)
Lemma gpr_foldE ref_features mol_features ref_mean c zid (l : seq 'I_NZ) result a :
  uniq l ->
  foldl (gpr_step n_ref ref_features mol_features ref_mean c zid) result l a 0
  = if [pick i in l | tnth zid a == Posz i] is Some i
    then gpr_value (n_ref i) (ref_features i) (row i c) (ref_mean i 0)
           (row a mol_features)
    else result a 0.
Proof.
elim: l result => [|i l IH] result /=.
  by move=> _; case: pickP => // i; rewrite in_nil.
case/andP=> i_notin l_uniq; rewrite IH // gpr_stepE.
case: pickP => [j /andP[j_in /eqP zj]|no_l].
  case: pickP => [j' /andP[_ /eqP]|/(_ j)]; last by rewrite in_cons j_in orbT zj eqxx.
  by rewrite zj => -[/val_inj ->].
case: ifP => [/eqP zi|zi].
  case: pickP => [j' /andP[_ /eqP]|/(_ i)]; last by rewrite mem_head zi eqxx.
  by rewrite zi => -[/val_inj ->].
case: pickP => // j /andP[]; rewrite in_cons => /orP[/eqP ->|j_in] zj.
  by rewrite zj in zi.
by have := no_l j; rewrite j_in zj.
Qed.

Lemma gprE ref_features mol_features ref_mean c zid a :
  _gpr n_ref ref_features mol_features ref_mean c zid a 0
  = gpr_pointwise n_ref ref_features ref_mean c (tnth zid a) (row a mol_features).
Proof.
rewrite /_gpr gpr_foldE ?enum_uniq // /gpr_pointwise mxE.
case: pickP => [i /andP[_ /eqP ->]|no_i].
  by case: insubP => [j _ /val_inj -> //|]; rewrite ltn_ord.
case: (tnth zid a) no_i => // n no_i; case: insubP => // i _ ni.
by have := no_i i; rewrite mem_enum -ni eqxx.
Qed.

Lemma gpr_pointwise_species ref_features ref_mean c (z : 'I_NZ) (x : 'rV[F]_D) :
  gpr_pointwise n_ref ref_features ref_mean c (Posz z) x
  = gpr_value (n_ref z) (ref_features z) (row z c) (ref_mean z 0) x.
Proof.
rewrite /gpr_pointwise; case: insubP => [j _ /val_inj -> //|].
by rewrite ltn_ord.
Qed.

(** C4. For an atom [a] of species [z] with [n_ref z > 0], the prediction
    is the sum over the first [n_ref z] references [b_j] of
    [(a . b_j)^2 * c z j], plus [ref_mean z]; it is read at the atom's own
    position, and it does not change when the references and
    coefficients of index [n_ref z] and beyond are replaced. *)
Theorem gpr_prediction ref_features mol_features ref_mean c zid
  (a : 'I_N) (z : 'I_NZ) :
  tnth zid a = Posz z -> (0 < n_ref z)%N ->
  _gpr n_ref ref_features mol_features ref_mean c zid a 0
  = \sum_(j < MAXREF | (j < n_ref z)%N)
      (\sum_d mol_features a d * ref_features z j d) ^+ 2 * c z j
    + ref_mean z 0
  /\ forall ref_features' c',
      (forall j : 'I_MAXREF, (j < n_ref z)%N ->
         row j (ref_features' z) = row j (ref_features z) /\ c' z j = c z j) ->
      _gpr n_ref ref_features' mol_features ref_mean c' zid a 0
      = _gpr n_ref ref_features mol_features ref_mean c zid a 0.
Proof.
move=> za _; split.
  rewrite gprE za gpr_pointwise_species /gpr_value; congr (_ + _).
  apply: eq_bigr => j _; rewrite /K_mol_ref2 !mxE; congr (_ ^+ 2 * _).
  by apply: eq_bigr => d _; rewrite mxE mulrC.
move=> ref_features' c' same.
rewrite !gprE za !gpr_pointwise_species /gpr_value; congr (_ + _).
apply: eq_bigr => j /same [/rowP same_row same_c].
rewrite /K_mol_ref2 !mxE same_c; congr (_ ^+ 2 * _).
by apply: eq_bigr => d _; have := same_row d; rewrite !mxE => ->.
Qed.

(** C6. [_gpr] is permutation-equivariant: on the features and species
    ids permuted by [pi] it returns the [pi]-permutation of its output on
    the original inputs. *)
Theorem gpr_permutation_equivariant ref_features mol_features ref_mean c zid
  (pi : 'S_N) :
  _gpr n_ref ref_features (row_perm pi mol_features) ref_mean c
       [tuple tnth zid (pi a) | a < N]
  = row_perm pi (_gpr n_ref ref_features mol_features ref_mean c zid).
Proof.
apply/colP => a; rewrite gprE tnth_mktuple [RHS]mxE gprE.
by congr gpr_pointwise; apply/rowP => d; rewrite !mxE.
Qed.

End GPRTheory.

(** ** The regularised kernel matrix *)

Section KernelTheory.

Variables (MAXREF D : nat).
Implicit Types (a : 'M[F]_(MAXREF, D)) (x : 'rV[F]_MAXREF).

Lemma K_ref_refE a j k : K_ref_ref a j k = (\sum_d a j d * a k d) ^+ 2.
Proof.
by rewrite mxE mxE; congr (_ ^+ 2); apply: eq_bigr => d _; rewrite mxE.
Qed.

Lemma K_ref_ref_sym a : (K_ref_ref a)^T = K_ref_ref a.
Proof.
apply/matrixP => j k; rewrite mxE !K_ref_refE; congr (_ ^+ 2).
by apply: eq_bigr => d _; rewrite mulrC.
Qed.

(** The quadratic form of the kernel matrix is a sum of squares. *)
Lemma K_ref_ref_quadratic a x :
  \sum_j \sum_k x 0 j * x 0 k * K_ref_ref a j k
  = \sum_d \sum_e (\sum_j x 0 j * a j d * a j e) ^+ 2.
Proof.
have -> : \sum_d \sum_e (\sum_j x 0 j * a j d * a j e) ^+ 2
          = \sum_d \sum_e \sum_j \sum_k
              (x 0 j * a j d * a j e) * (x 0 k * a k d * a k e).
  apply: eq_bigr => d _; apply: eq_bigr => e _.
  by rewrite expr2 big_distrlr.
have -> : \sum_j \sum_k x 0 j * x 0 k * K_ref_ref a j k
          = \sum_j \sum_k \sum_d \sum_e
              (x 0 j * a j d * a j e) * (x 0 k * a k d * a k e).
  apply: eq_bigr => j _; apply: eq_bigr => k _.
  rewrite K_ref_refE expr2 big_distrlr /= mulr_sumr.
  apply: eq_bigr => d _; rewrite mulr_sumr; apply: eq_bigr => e _.
  by rewrite [a j d * _ * _]mulrACA mulrACA !mulrA.
apply: esym; under eq_bigr => d _ do rewrite exchange_big.
rewrite exchange_big /=; apply: eq_bigr => j _.
rewrite [RHS]exchange_big /=; apply: eq_bigr => d _.
by rewrite exchange_big.
Qed.

Lemma K_ref_ref_quadratic_ge0 a x :
  0 <= \sum_j \sum_k x 0 j * x 0 k * K_ref_ref a j k.
Proof.
rewrite K_ref_ref_quadratic; apply: sumr_ge0 => d _; apply: sumr_ge0 => e _.
exact: sqr_ge0.
Qed.

(** With a nonzero [sigma] the regularised kernel matrix is invertible. *)
Lemma K_sigma_unit a (sigma : F) :
  sigma != 0 -> K_ref_ref a + sigma ^+ 2 *: 1%:M \in unitmx.
Proof.
move=> sigma0; rewrite -row_free_unit -kermx_eq0; apply/eqP/row_matrixP => i.
rewrite row0.
have: row i (kermx (K_ref_ref a + sigma ^+ 2 *: 1%:M))
      *m (K_ref_ref a + sigma ^+ 2 *: 1%:M) = 0.
  by rewrite -row_mul mulmx_ker row0.
move: (row i _) => x.
have := K_ref_ref_quadratic_ge0 a x; move: (K_ref_ref a) => K Qge0 xA.
have quad : \sum_j \sum_k x 0 j * x 0 k * K j k + sigma ^+ 2 * \sum_k x 0 k ^+ 2 = 0.
  have e : (x *m (K + sigma ^+ 2 *: 1%:M) *m x^T) 0 0 = 0 by rewrite xA mul0mx mxE.
  rewrite -[RHS]e exchange_big mulr_sumr -big_split /= [RHS]mxE; apply: eq_bigr => k _.
  rewrite [X in _ = X * _]mxE [X in _ = _ * X]mxE mulr_suml.
  have BE j : (K + sigma ^+ 2 *: 1%:M) j k = K j k + sigma ^+ 2 * (j == k)%:R.
    by rewrite !mxE.
  under [RHS]eq_bigr => j _ do rewrite BE mulrDr mulrDl.
  rewrite big_split /=; congr (_ + _); first by apply: eq_bigr => j _; rewrite mulrAC.
  rewrite (bigD1 k) //= eqxx big1 ?addr0.
    by move=> j /negPf ->; rewrite !(mulr0, mul0r).
  by rewrite mulr1 mulrAC -expr2 mulrC.
have sigma2_gt0 : 0 < sigma ^+ 2 by rewrite lt0r sqrf_eq0 sigma0 sqr_ge0.
have S0 : \sum_k x 0 k ^+ 2 = 0.
  apply/eqP; rewrite eq_le -(pmulr_rle0 _ sigma2_gt0); apply/andP; split.
    by move/eqP: quad; rewrite addrC addr_eq0 => /eqP ->; rewrite oppr_le0.
  by apply: sumr_ge0 => k _; exact: sqr_ge0.
apply/rowP => k; rewrite mxE.
have /(_ k isT)/eqP := psumr_eq0P (fun k _ => sqr_ge0 (x 0 k)) S0.
by rewrite sqrf_eq0 => /eqP.
Qed.

Lemma get_Kinv_ok (NZ : nat) (rf : 'I_NZ -> 'M[F]_(MAXREF, D)) (sigma : F) :
  sigma != 0 ->
  _get_Kinv rf sigma
  = Ok (fun i => invmx (K_ref_ref (rf i) + sigma ^+ 2 *: 1%:M)).
Proof.
move=> sigma0; rewrite /_get_Kinv; case: ifPn => // /forallPn[i].
by rewrite K_sigma_unit.
Qed.

End KernelTheory.

(** ** A species with a single reference *)

Section SingleReference.

Variables (NZ MAXREF' D : nat).

(** In an invertible matrix whose first row vanishes off the diagonal,
    the first row of the inverse vanishes off the diagonal too. *)
Lemma invmx_row0 (A : 'M[F]_(MAXREF'.+1)) :
  A \in unitmx -> (forall k, k != 0 -> A 0 k = 0) ->
  forall k, k != 0 -> invmx A 0 k = 0.
Proof.
move=> Aunit A0 k k0.
have rowA : row 0 A = A 0 0 *: delta_mx 0 0.
  apply/rowP => j; rewrite !mxE eqxx /=; case: (altP (j =P 0)) => [->|/A0 ->].
    by rewrite mulr1.
  by rewrite mulr0.
have: row 0 (A *m invmx A) = delta_mx 0 0 by rewrite mulmxV // row1.
rewrite row_mul rowA -scalemxAl -rowE => eq_row.
have := congr1 (fun B : 'rV[F]_(MAXREF'.+1) => B 0 0) eq_row.
have := congr1 (fun B : 'rV[F]_(MAXREF'.+1) => B 0 k) eq_row.
rewrite !mxE !eqxx /= (negPf k0) => /eqP; rewrite mulf_eq0 => /orP[/eqP -> |/eqP //].
by rewrite mul0r => /eqP; rewrite eq_sym oner_eq0.
Qed.

Variables (n_ref : 'I_NZ -> nat) (ref_features : 'I_NZ -> 'M[F]_(MAXREF'.+1, D)).
Variables (sigma : F) (Kinv : 'I_NZ -> 'M[F]_(MAXREF'.+1)) (z : 'I_NZ).
Variable ref_values : 'M[F]_(NZ, MAXREF'.+1).

Hypothesis Kinv_ok : _get_Kinv ref_features sigma = Ok Kinv.
Hypothesis one_ref : n_ref z = 1%N.
Hypothesis pad_features : forall j, j != 0 -> row j (ref_features z) = 0.
Hypothesis pad_values : forall j, j != 0 -> ref_values z j = 0.

Lemma single_ref_mean : ref_mean_of n_ref ref_values z 0 = ref_values z 0.
Proof.
rewrite mxE one_ref divr1 big_ord_recl big1 ?addr0 // => j _.
exact: pad_values.
Qed.

Lemma single_ref_coefficient :
  gpr_coefficients Kinv ref_values (ref_mean_of n_ref ref_values) z 0 = 0.
Proof.
move: Kinv_ok; rewrite /_get_Kinv; case: ifP => // /forallP /(_ z) Kunit [KinvE].
rewrite /gpr_coefficients mxE mxE big1 // => k _.
rewrite [X in _ * X]mxE [X in _ * X]mxE [X in _ * X]mxE single_ref_mean.
case: (altP (k =P 0)) => [->|k0]; first by rewrite subrr mulr0.
rewrite -KinvE invmx_row0 ?mul0r // => j j0.
rewrite !mxE (negPf (_ : (0 : 'I_(MAXREF'.+1)) != j)) 1?eq_sym // mulr0n mulr0 addr0.
rewrite big1 ?expr0n // => d _.
by have /rowP /(_ d) := pad_features j0; rewrite !mxE => ->; rewrite mulr0.
Qed.

Lemma single_ref_prediction (N : nat) (mol_features : 'M[F]_(N, D))
  (zid : N.-tuple int) (a : 'I_N) :
  tnth zid a = Posz z ->
  _gpr n_ref ref_features mol_features (ref_mean_of n_ref ref_values)
       (gpr_coefficients Kinv ref_values (ref_mean_of n_ref ref_values)) zid a 0
  = ref_values z 0.
Proof.
move=> za; rewrite gprE za gpr_pointwise_species /gpr_value one_ref.
rewrite single_ref_mean big_mkcond big_ord_recl /= big1 //.
by rewrite mxE single_ref_coefficient mulr0 addr0 add0r.
Qed.

End SingleReference.

Section SingleReferenceModel.

Variables (NZ MAXREF' D : nat).


End SingleReferenceModel.

(** ** Units *)

Lemma decimal_fold_gt0 (ds : seq nat) (acc : F) :
  0 < acc -> 0 < foldl (fun acc d => acc * 10%:R + d%:R) acc ds.
Proof.
elim: ds acc => [|d ds IH] acc acc0 //=; apply: IH.
by rewrite ltr_wpDr ?ler0n // mulr_gt0 // ltr0n.
Qed.

Lemma decimal_gt0 (d : nat) (ds : seq nat) : (0 < d)%N -> 0 < decimal F (d :: ds).
Proof.
by move=> d0; rewrite /decimal /=; apply: decimal_fold_gt0; rewrite mul0r add0r ltr0n.
Qed.

Lemma ANGSTROM_TO_BOHR_gt0 : 0 < ANGSTROM_TO_BOHR.
Proof. by rewrite /ANGSTROM_TO_BOHR divr_gt0 ?exprn_gt0 ?ltr0n // decimal_gt0. Qed.

(** C7. Unit round trip: a position multiplied by [ANGSTROM_TO_BOHR], as
    [forward] does, and divided by the same constant is recovered
    exactly; the constant is the decimal [1.8897261258369282]. *)
Theorem angstrom_bohr_round_trip (n : nat) (xyz : 'M[F]_(n, 3)) (x : F) :
  [/\ x * ANGSTROM_TO_BOHR / ANGSTROM_TO_BOHR = x,
      map_mx (fun y => y / ANGSTROM_TO_BOHR) (to_bohr xyz) = xyz
    & ANGSTROM_TO_BOHR * 10%:R ^+ 16
      = decimal F [:: 1; 8; 8; 9; 7; 2; 6; 1; 2; 5; 8; 3; 6; 9; 2; 8; 2]%N].
Proof.
have c0 : ANGSTROM_TO_BOHR != 0 by rewrite lt0r_neq0 // ANGSTROM_TO_BOHR_gt0.
split; first by rewrite mulfK.
  by apply/matrixP => i k; rewrite !mxE mulfK.
by rewrite /ANGSTROM_TO_BOHR divfK // expf_neq0 // pnatr_eq0.
Qed.

(** ** The forward pass *)

Section ForwardTheory.

Variables (NZ MAXREF D : nat).
Implicit Types (self : EMLE NZ MAXREF D) (ani : ANI2xEMLE NZ MAXREF D).

(** The indices a tensor of size [n] accepts. *)
Lemma norm_indexP (n : nat) (z : int) :
  (norm_index n z : bool) = (- n%:Z <= z) && (z < n%:Z).
Proof.
case: z => k /=.
  have -> : - n%:Z <= Posz k by rewrite (@le_trans _ _ 0) // oppr_le0.
  by rewrite ltz_nat; case: ifP.
have -> : Negz k < n by rewrite NegzE (@lt_le_trans _ _ 0) // oppr_lt0.
by rewrite NegzE lerN2 lez_nat andbT; case: ifP.
Qed.

Lemma getitem_raises (T : Type) (d : T) (t : seq T) (n : nat) (zs : n.-tuple int) :
  (getitem d t zs = Raise IndexError)
  <-> exists2 z, z \in zs & ~~ ((- (size t)%:Z <= z) && (z < (size t)%:Z)).
Proof.
rewrite /getitem; case: ifPn => [/allP ok|/allPn[z z_in z_out]]; split=> //.
- by case=> z /ok; rewrite norm_indexP => ->.
- by move=> _; exists z => //; rewrite -norm_indexP.
Qed.

Lemma getitem_ok (T : Type) (d : T) (t : seq T) (n : nat) (zs : n.-tuple int) :
  all (fun z => norm_index (size t) z : bool) zs ->
  getitem d t zs
  = Ok [tuple of [seq nth d t (odflt 0%N (norm_index (size t) z)) | z <- zs]].
Proof. by rewrite /getitem => ->. Qed.

Lemma EMLE_init_species_map mode aev (p : params NZ MAXREF D) self :
  EMLE_init mode aev p = Ok self -> _species_map self = species_map.
Proof.
rewrite /EMLE_init; case: ifP => // _.
by case: (_get_Kinv _ _) => [Kinv|//] /=; case: mode => /= -[<-].
Qed.

(** The table [__init__] builds: H, C, N, O and S at their atomic numbers,
    [-1] everywhere else. *)
Lemma species_mapE :
  species_map
  = [:: Negz 0; 0%:Z; Negz 0; Negz 0; Negz 0; Negz 0; 1%:Z; 2%:Z; 3%:Z;
        Negz 0; Negz 0; Negz 0; Negz 0; Negz 0; Negz 0; Negz 0; 4%:Z].
Proof. by []. Qed.

(** The sentinel: an atomic number below 17 that is not a supported
    species is mapped to [-1]. *)
Lemma species_map_unsupported (k : nat) :
  (k < 17)%N -> k \notin species -> nth 0 species_map k = Negz 0.
Proof. by do 17!case: k => [|k] //. Qed.

Lemma zeros2E : zeros 2 = stack2 0 0.
Proof.
apply/rowP => i; rewrite !mxE.
by case: i => -[|[|i]] //= lt_i; rewrite ?nth_nil.
Qed.

(** With an empty list of point charges [EMLE.forward] returns the zero
    2-vector for every input, and no lookup or linear solve stands in
    its way.  [ANI2xEMLE.forward] returns [(E_vac, 0, 0)], with the
    in-vacuo energy unchanged, when every atomic number is a valid index
    into the species map and the in-vacuo model returns; when some
    atomic number is not a valid index it raises in the lookup, whatever
    the in-vacuo model would do. *)
Theorem forward_no_charges self ani (N : nat) (atomic_numbers : N.-tuple int)
  (charges_mm : 'cV[F]_0) (xyz_qm : 'M[F]_(N, 3)) (xyz_mm : 'M[F]_(0, 3)) :
  [/\ EMLE_forward self atomic_numbers charges_mm xyz_qm xyz_mm = Ok (zeros 2),
      zeros 2 = stack2 0 0,
      forall E_vac aev,
        (forall z, z \in atomic_numbers ->
           (- (size (_species_map (emle_base ani)))%:Z <= z)
           && (z < (size (_species_map (emle_base ani)))%:Z)) ->
        _ani2x ani atomic_numbers xyz_qm = Ok (E_vac, aev) ->
        ANI2xEMLE_forward ani atomic_numbers charges_mm xyz_qm xyz_mm
        = Ok (stack3 E_vac 0 0)
    & (exists2 z, z \in atomic_numbers
         & ~~ ((- (size (_species_map (emle_base ani)))%:Z <= z)
               && (z < (size (_species_map (emle_base ani)))%:Z))) ->
      ANI2xEMLE_forward ani atomic_numbers charges_mm xyz_qm xyz_mm
      = Raise IndexError].
Proof.
split=> // [|E_vac aev in_range vac|/getitem_raises lookup].
- exact: zeros2E.
- have ok : all (fun z => norm_index (size (_species_map (emle_base ani))) z : bool)
               atomic_numbers.
    by apply/allP => z /in_range; rewrite norm_indexP.
  by rewrite /ANI2xEMLE_forward (getitem_ok _ ok) /= vac.
- by rewrite /ANI2xEMLE_forward lookup.
Qed.

(** C8 (as the code has it). In a model whose species map is the one
    [__init__] builds, an atomic number outside the index range
    [[-17, 16]] of that map makes the lookup raise an index error before
    anything else is computed ([EMLE.forward] looks up only when the list
    of point charges is not empty).  An atomic number below 17 that is
    not a supported species does not raise: the lookup succeeds and
    yields the sentinel [-1]. *)
Theorem species_lookup_failure self ani (N M : nat) (atomic_numbers : N.-tuple int)
  (charges_mm : 'cV[F]_M) (xyz_qm : 'M[F]_(N, 3)) (xyz_mm : 'M[F]_(M, 3)) :
  _species_map self = species_map ->
  _species_map (emle_base ani) = species_map ->
  [/\ (exists2 z, z \in atomic_numbers & ~~ ((- 17%:Z <= z) && (z < 17%:Z))) ->
      (M != 0%N ->
       EMLE_forward self atomic_numbers charges_mm xyz_qm xyz_mm = Raise IndexError)
      /\ ANI2xEMLE_forward ani atomic_numbers charges_mm xyz_qm xyz_mm
         = Raise IndexError,
      (forall z, z \in atomic_numbers -> (- 17%:Z <= z) && (z < 17%:Z)) ->
      exists2 species_id,
        getitem 0 species_map atomic_numbers = Ok species_id
        & forall a (k : nat), tnth atomic_numbers a = Posz k -> k \notin species ->
            tnth species_id a = Negz 0
    & forall (T : Type) (d x : T) (t : seq T),
        getitem d (rcons t x) [tuple Negz 0] = Ok [tuple x]].
Proof.
move=> map_self map_ani; split.
- move=> out; have /getitem_raises lookup : exists2 z, z \in atomic_numbers
      & ~~ ((- (size species_map)%:Z <= z) && (z < (size species_map)%:Z)) by [].
  split=> [/negPf M0|].
    by rewrite /EMLE_forward M0 map_self lookup.
  by rewrite /ANI2xEMLE_forward map_ani lookup.
- move=> in_range.
  have ok : all (fun z => norm_index (size species_map) z : bool) atomic_numbers.
    by apply/allP => z /in_range; rewrite norm_indexP.
  rewrite (getitem_ok _ ok); eexists; first by [].
  move=> a k ak k_unsupp; rewrite tnth_map ak /=.
  have k17 : (k < 17)%N by have := in_range _ (mem_tnth a atomic_numbers); rewrite ak.
  by rewrite k17 /= species_map_unsupported.
- move=> T d x t; rewrite /getitem /= size_rcons ltn0Sn /=; congr Ok.
  by apply: val_inj; rewrite /= subn1 /= nth_rcons ltnn eqxx.
Qed.

End ForwardTheory.

End Model.

Arguments sqrt_r {F} x.
Arguments erf_r {F} x.
Arguments exp_r {F} x.
Arguments pi_r {F}.
Arguments xyz_two_atoms {F}.
Arguments params_single_ref {F}.
Arguments params_unpadded {F}.
Arguments features_zero {F} N _ _.
Arguments model_single_ref {F}.
Arguments model_ani2x {F}.

(** * The statements at concrete inputs *)

Section Instances.

Variable F : realFieldType.

Lemma const1_mx11 : (const_mx 1 : 'M[F]_1) = 1%:M.
Proof. by apply/matrixP => i j; rewrite !mxE !ord1 eqxx. Qed.

(** With a single atom the QEq matrix is always invertible. *)
Lemma A_QEq_unit_one_atom (sqrtF erfF : F -> F) (piF a_QEq : F)
  (rd : r_data F 1) (s : 'cV[F]_1) :
  _get_A_QEq sqrtF erfF piF a_QEq rd s \in unitmx.
Proof.
rewrite /_get_A_QEq; set A := overwrite_diag _ _.
have [] // := @mulmx1_unit _ _ (block_mx A (const_mx 1) (const_mx 1) 0)
                (block_mx 0 1%:M 1%:M (- A)).
rewrite mulmx_block !const1_mx11 !mul1mx !mulmx1 !mulmx0 !mul0mx !add0r !addr0.
by rewrite subrr -scalar_mx_block.
Qed.

Lemma xyz_two_atoms_distinct (i j : 'I_2) :
  i != j -> row i (@xyz_two_atoms F) != row j xyz_two_atoms.
Proof.
apply: contraNN => /eqP /rowP /(_ 0); rewrite !mxE => /eqP.
by rewrite eqr_nat.
Qed.

Lemma alpha_two_atoms (i : 'I_2) :
  0 < - 60%:R * (const_mx (- 1) : 'cV[F]_2) i 0 * (const_mx 1 : 'cV[F]_2) i 0 ^+ 3
      * (const_mx 1 : 'cV[F]_2) i 0.
Proof. by rewrite !mxE mulrNN expr1n !mulr1 ltr0n. Qed.

Lemma s_mat_unit_widths (i j : 'I_2) :
  s_mat_of sqrt_r 1 (const_mx 1 : 'cV[F]_2) i j * sqrt_r 2%:R != 0.
Proof.
by rewrite /sqrt_r !mxE mulr1 expr1n -mulr2n mulf_neq0 // pnatr_eq0.
Qed.

Lemma K_ref_ref0 : K_ref_ref (0 : 'M[F]_(2, 2)) = 0.
Proof. by rewrite /K_ref_ref mul0mx; apply/matrixP => j k; rewrite !mxE expr0n. Qed.

Lemma Kinv_single_ref :
  _get_Kinv (p_ref_aev (@params_single_ref F)) (1000%:R^-1)
  = Ok (fun i => invmx (K_ref_ref (p_ref_aev params_single_ref i)
                        + (1000%:R^-1) ^+ 2 *: 1%:M)).
Proof.
rewrite /_get_Kinv; case: ifPn => // /forallPn[i].
by rewrite /= K_ref_ref0 add0r unitmxZ ?unitmx1 // unitfE expf_neq0 // invr_eq0 pnatr_eq0.
Qed.

Lemma init_single_ref :
  EMLE_init species_mode (Some features_zero) params_single_ref
  = Ok (@model_single_ref F).
Proof. by rewrite /EMLE_init /= Kinv_single_ref. Qed.

Lemma padding_single_ref (z : 'I_2) (j : 'I_2) :
  j != 0 ->
  [/\ row j (p_ref_aev (@params_single_ref F) z) = 0,
      p_s_ref (@params_single_ref F) z j = 0
    & p_chi_ref (@params_single_ref F) z j = 0].
Proof. by move=> /negPf j0; split; rewrite /= ?row0 // mxE j0. Qed.

Lemma water_in_range (z : int) :
  z \in water ->
  (- (size (_species_map (emle_base (@model_ani2x F))))%:Z <= z)
  && (z < (size (_species_map (emle_base (@model_ani2x F))))%:Z).
Proof. by rewrite !inE => /or3P[] /eqP ->. Qed.

Lemma chlorine_raises (M : nat) (charges_mm : 'cV[F]_M) (xyz_mm : 'M[F]_(M, 3)) :
  ANI2xEMLE_forward sqrt_r erf_r exp_r pi_r model_ani2x chlorine charges_mm 0 xyz_mm
  = Raise IndexError.
Proof. by []. Qed.

Lemma water_lookup : getitem 0 species_map water = Ok [tuple 3%:Z; 0%:Z; 0%:Z].
Proof. by rewrite /getitem /=; congr Ok; apply: val_inj. Qed.

Lemma fluorine_lookup : getitem 0 species_map fluorine = Ok [tuple Negz 0].
Proof. by rewrite /getitem /=; congr Ok; apply: val_inj. Qed.

Lemma fluorine_proceeds (charges_mm : 'cV[F]_1) (xyz_qm : 'M[F]_(1, 3))
  (xyz_mm : 'M[F]_(1, 3)) :
  EMLE_forward sqrt_r erf_r exp_r pi_r model_single_ref fluorine charges_mm xyz_qm xyz_mm
  = (E <- emle_energies sqrt_r erf_r exp_r pi_r model_single_ref [tuple Negz 0]
            (normalise sqrt_r (features_zero 1 [tuple Negz 0] xyz_qm))
            charges_mm xyz_qm xyz_mm ;;
     Ok (stack2 E.1 E.2)).
Proof. by rewrite /EMLE_forward -[_species_map _]/species_map fluorine_lookup. Qed.

Lemma sentinel_reads_last_species :
  getitem 0 (_q_core (@model_single_ref F)) [tuple Negz 0] = Ok [tuple 6%:R].
Proof. by rewrite /getitem /=; congr Ok; apply: val_inj. Qed.

(** The in-vacuo stand-in returns for every molecule. *)
Lemma ani2x_returns (N : nat) (zs : N.-tuple int) (xyz : 'M[F]_(N, 3)) :
  _ani2x (@model_ani2x F) zs xyz = Ok (1, 0).
Proof. by []. Qed.

Lemma chlorine_out_of_range :
  exists2 z, z \in chlorine
  & ~~ ((- (size (_species_map (emle_base (@model_ani2x F))))%:Z <= z)
        && (z < (size (_species_map (emle_base (@model_ani2x F))))%:Z)).
Proof. by exists 17%:Z; rewrite ?mem_head. Qed.

(** Two atoms at the same place: every distance is zero, and so is every
    divisor of the quotient [1.0 / r_mat]. *)
Lemma coincident_distance (i j : 'I_2) :
  r_mat (_get_r_data sqrt_r (0 : 'M[F]_(2, 3))) i j = 0.
Proof.
rewrite /= mxE /sqrt_r big1 // => k _.
by rewrite !mxE subrr expr0n.
Qed.

Lemma coincident_quotient_by_zero (i j : 'I_2) :
  r_inv_operand (r_mat (_get_r_data sqrt_r (0 : 'M[F]_(2, 3)))) i j = None.
Proof. by apply/eqP; rewrite r_inv_operandE coincident_distance. Qed.

(** With zero widths the divisor of the Gaussian kernel is zero. *)
Lemma zero_widths_divisor (i j : 'I_2) :
  s_mat_of sqrt_r 1 (0 : 'cV[F]_2) i j * sqrt_r 2%:R = 0.
Proof. by rewrite /sqrt_r !mxE mul0r expr0n addr0 mul0r. Qed.

(** The model built from [params_unpadded]: the mean of a species is
    the sum of both slots over [n_ref = 1], that is 2, and so is every
    prediction, the reference features being zero. *)
Lemma unpadded_prediction (mol_features : 'M[F]_(1, 2)) :
  exists2 self,
    EMLE_init species_mode (Some features_zero) params_unpadded = Ok self
  & [/\ _n_ref self ord0 = 1%N,
        _gpr (_n_ref self) (_ref_features self) mol_features
             (_ref_mean_s self) (_c_s self) [tuple 0%:Z] ord0 0 = 2%:R,
        _ref_values_s self ord0 0 = 1
      & _gpr (_n_ref self) (_ref_features self) mol_features
             (_ref_mean_s self) (_c_s self) [tuple 0%:Z] ord0 0
        <> _ref_values_s self ord0 0].
Proof.
have sigma0 : (1000%:R^-1 : F) != 0 by rewrite invr_eq0 pnatr_eq0.
rewrite /EMLE_init /= (get_Kinv_ok _ sigma0) /=.
eexists; first reflexivity.
set c := gpr_coefficients _ _ _.
have prediction :
  _gpr (fun _ : 'I_2 => 1%N) (fun _ => 0) mol_features
       (ref_mean_of (fun _ => 1%N) (const_mx 1 : 'M[F]_(2, 2))) c
       [tuple 0%:Z] ord0 0 = 2%:R.
  rewrite gprE.
  have -> : tnth [tuple 0%:Z] (@ord0 0) = Posz (ord0 : 'I_2).
    by rewrite (tnth_nth 0).
  rewrite gpr_pointwise_species /gpr_value.
  rewrite big1 ?add0r.
    by move=> j _; rewrite /K_mol_ref2 big1 ?expr0n ?mul0r // => d _; rewrite mxE mul0r.
  by rewrite mxE divr1 big_ord_recl big_ord1 !mxE.
split=> //=; first by rewrite mxE.
by rewrite prediction mxE => /eqP; rewrite (eqr_nat F 2 1).
Qed.

End Instances.

(** C2 at one atom at the origin. *)
Lemma QEq_charges_sum_one_atom :
  exists2 q : 'cV[rat]_1,
    _get_q sqrt_r erf_r pi_r 1 (1 / 2%:R) (_get_r_data sqrt_r 0)
           (const_mx 1) (const_mx (3%:R / 4%:R)) = Ok q
    & \sum_i q i 0 = 1 / 2%:R.
Proof.
apply: (@QEq_charges_sum_to_total rat sqrt_r erf_r pi_r 1 1 (1 / 2%:R) 0
          (const_mx 1) (const_mx (3%:R / 4%:R))).
exact: A_QEq_unit_one_atom.
Defined.

(** C4 for the single atom of a molecule of species 0. *)
Lemma gpr_prediction_one_atom :
  _gpr (fun _ : 'I_2 => 1%N) (fun _ => 1%:M) (const_mx 1 : 'M[rat]_(1, 2))
       (const_mx 2%:R) (const_mx 3%:R : 'M[rat]_(2, 2)) [tuple 0%:Z] ord0 0
  = \sum_(j < 2 | (j < 1)%N)
      (\sum_d (const_mx 1 : 'M[rat]_(1, 2)) ord0 d * (1%:M : 'M[rat]_2) j d) ^+ 2
      * (const_mx 3%:R : 'M[rat]_(2, 2)) ord0 j
    + (const_mx 2%:R : 'cV[rat]_2) ord0 0.
Proof.
by case: (@gpr_prediction rat 2 2 2 1 (fun _ => 1%N) (fun _ => 1%:M) (const_mx 1)
            (const_mx 2%:R) (const_mx 3%:R) [tuple 0%:Z] ord0 ord0 erefl erefl).
Defined.

(** C5 at two atoms with negative valence charges. *)
Lemma A_thole_two_atoms :
  (forall i j : 'I_2, i != j -> row i (@xyz_two_atoms rat) != row j xyz_two_atoms)
  /\ (_get_A_thole sqrt_r exp_r 2%:R (_get_r_data sqrt_r (@xyz_two_atoms rat))
         (const_mx 1) (const_mx (- 1)) (const_mx 1))^T
      = _get_A_thole sqrt_r exp_r 2%:R (_get_r_data sqrt_r xyz_two_atoms)
          (const_mx 1) (const_mx (- 1)) (const_mx 1).
Proof.
split; first exact: xyz_two_atoms_distinct.
by case: (@A_thole_symmetric_diag rat sqrt_r exp_r 2 2%:R xyz_two_atoms
            (const_mx 1) (const_mx (- 1)) (const_mx 1)
            (@xyz_two_atoms_distinct rat) (@alpha_two_atoms rat)).
Defined.





(** A water molecule without point charges. *)
Lemma forward_no_charges_water :
  EMLE_forward sqrt_r erf_r exp_r pi_r (@model_single_ref rat) water 0 0
    (0 : 'M[rat]_(0, 3))
  = Ok (zeros rat 2)
  /\ ANI2xEMLE_forward sqrt_r erf_r exp_r pi_r (@model_ani2x rat) water 0 0
       (0 : 'M[rat]_(0, 3))
     = Ok (stack3 1 0 0).
Proof.
case: (@forward_no_charges rat sqrt_r erf_r exp_r pi_r 2 2 2 model_single_ref
         model_ani2x 3 water 0 0 0) => emle_zero _ ani_zero _.
split; first exact: emle_zero.
by apply: (ani_zero 1 0); [exact: water_in_range | exact: ani2x_returns].
Defined.

(** C1 at the failing input, a chlorine atom without point charges: the
    in-vacuo model returns its energy and [EMLE.forward] returns the
    zero vector, but [ANI2xEMLE.forward] raises in the species lookup
    that precedes its test for the empty list, and so does not return
    [(E_vac, 0, 0)]. *)
Lemma forward_no_charges_chlorine :
  [/\ _ani2x (@model_ani2x rat) chlorine 0 = Ok (1, 0),
      EMLE_forward sqrt_r erf_r exp_r pi_r (emle_base (@model_ani2x rat))
        chlorine 0 0 (0 : 'M[rat]_(0, 3))
      = Ok (zeros rat 2),
      ANI2xEMLE_forward sqrt_r erf_r exp_r pi_r (@model_ani2x rat) chlorine 0 0
        (0 : 'M[rat]_(0, 3))
      = Raise IndexError
    & ANI2xEMLE_forward sqrt_r erf_r exp_r pi_r (@model_ani2x rat) chlorine 0 0
        (0 : 'M[rat]_(0, 3))
      <> Ok (stack3 1 0 0)].
Proof. by split; rewrite ?chlorine_raises. Qed.

(** C8 for a chlorine atom in front of one point charge. *)
Lemma species_lookup_failure_chlorine :
  EMLE_forward sqrt_r erf_r exp_r pi_r (@model_single_ref rat) chlorine
    (const_mx 1) 0 (const_mx 1 : 'M[rat]_(1, 3))
  = Raise IndexError.
Proof.
case: (@species_lookup_failure rat sqrt_r erf_r exp_r pi_r 2 2 2 model_single_ref
         model_ani2x 1 1 chlorine (const_mx 1) 0 (const_mx 1) erefl erefl)
  => raises _ _.
by case: raises => //; exists 17%:Z.
Defined.

(** C8 as stated fails for a fluorine atom: the lookup succeeds with the
    sentinel [-1] and the evaluation goes on with it, the per-species
    tables being read at their last entry; and without point charges
    [EMLE.forward] does not look up at all. *)
Lemma lookup_accepts_fluorine :
  [/\ 9%N \notin species,
      getitem 0 species_map fluorine = Ok [tuple Negz 0],
      forall (charges_mm : 'cV[rat]_1) (xyz_qm xyz_mm : 'M[rat]_(1, 3)),
        EMLE_forward sqrt_r erf_r exp_r pi_r model_single_ref fluorine
          charges_mm xyz_qm xyz_mm
        = (E <- emle_energies sqrt_r erf_r exp_r pi_r model_single_ref
                  [tuple Negz 0]
                  (normalise sqrt_r (features_zero 1 [tuple Negz 0] xyz_qm))
                  charges_mm xyz_qm xyz_mm ;;
           Ok (stack2 E.1 E.2)),
      getitem 0 (_q_core (@model_single_ref rat)) [tuple Negz 0] = Ok [tuple 6%:R]
    & EMLE_forward sqrt_r erf_r exp_r pi_r (@model_single_ref rat) fluorine 0 0
        (0 : 'M[rat]_(0, 3))
      = Ok (zeros rat 2)].
Proof.
split; [by [] | exact: fluorine_lookup | exact: fluorine_proceeds
       | exact: sentinel_reads_last_species | by []].
Qed.
